(** * native_add.c: the two native functions called over FFI

    Shallow embedding of [native/native_add.c] and the properties its
    interface contract states.

    - [int32_t] values are integers of [Z] lying in the signed 32-bit range;
      arithmetic results are reduced with the two's-complement wrap-around
      written out ([Int32.wrap]).  This is the reading the interface
      contract gives of an addition that overflows (ISO C leaves it
      undefined); the [overflow] flag of [EvAdd] records where it happens.
    - The C functions run in a small monad [M]: they receive the
      process-wide state, may emit events, and return a value.  The only
      system call of the file is [usleep]; the statements of the loop body
      are logged as events as well, so that claims about which statements
      ran, and in which order, can be stated.
    - The [for] loop is driven by fuel: one unit per execution of its body. *)

From Stdlib Require Import ZArith List Bool Lia.
Import ListNotations.

Local Open Scope Z_scope.

(** ** 32-bit signed integers *)

Module Int32.

Definition modulus : Z := 2 ^ 32.
Definition half_modulus : Z := 2 ^ 31.
Definition min_signed : Z := - half_modulus.
Definition max_signed : Z := half_modulus - 1.

Definition in_range (z : Z) : Prop := min_signed <= z <= max_signed.

Definition in_rangeb (z : Z) : bool :=
  (min_signed <=? z) && (z <=? max_signed).

(** The bit pattern of a signed value, as a number below [modulus]. *)
Definition unsigned (z : Z) : Z := z mod modulus.

(** The signed value of a bit pattern. *)
Definition signed (u : Z) : Z :=
  if u <? half_modulus then u else u - modulus.

(** Reduction of a mathematical integer into the signed range. *)
Definition wrap (z : Z) : Z :=
  (z + half_modulus) mod modulus - half_modulus.

(** [x + y] on [int32_t]. *)
Definition add (x y : Z) : Z := wrap (x + y).

(** [x ^ y] on [int32_t]: exclusive or of the two bit patterns. *)
Definition xor (x y : Z) : Z :=
  signed (Z.lxor (unsigned x) (unsigned y)).

(** [x % y] on [int32_t]: the remainder of the division that truncates
    toward zero. *)
Definition rems (x y : Z) : Z := Z.rem x y.

(** [x < y] on [int32_t]. *)
Definition lt (x y : Z) : bool := x <? y.

End Int32.

(** ** Events and the monad of C calls *)

Inductive event : Type :=
| EvAdd (i : Z) (overflow : bool)
    (* [sum += i] ran at loop index [i]; [overflow] tells whether the exact
       sum left the int32 range, that is, whether the addition wrapped *)
| EvXor (i : Z)
    (* [sum ^= i] ran at loop index [i] *)
| EvUsleep (usec : Z).
    (* the call [usleep(usec)] *)

Definition is_syscall (e : event) : bool :=
  match e with EvUsleep _ => true | _ => false end.

Definition is_xor (e : event) : bool :=
  match e with EvXor _ => true | _ => false end.

Definition is_overflow (e : event) : bool :=
  match e with EvAdd _ ovf => ovf | _ => false end.

Definition is_body (e : event) : bool :=
  match e with EvAdd _ _ => true | _ => false end.

(** The system calls of a trace, the loop indices at which the XOR ran, and
    the number of times the loop body ran. *)
Definition syscalls (t : list event) : list event := filter is_syscall t.

Definition xor_sites (t : list event) : list Z :=
  flat_map (fun e => match e with EvXor i => [i] | _ => [] end) t.

Definition body_runs (t : list event) : nat := length (filter is_body t).

Definition wrapped (t : list event) : bool := existsb is_overflow t.

Section Program.

(** The process-wide state (global variables, environment, files): the
    functions are given it and hand it back. *)
Variable G : Type.

(** A call maps the process state to [None] when the fuel ran out, or to
    the returned value, the events emitted in order, and the process
    state it leaves. *)
Definition M (A : Type) : Type := G -> option (A * list event * G).

Definition ret {A : Type} (a : A) : M A := fun g => Some (a, [], g).

Definition bind {A B : Type} (m : M A) (k : A -> M B) : M B :=
  fun g =>
    match m g with
    | None => None
    | Some (a, t1, g1) =>
        match k a g1 with
        | None => None
        | Some (b, t2, g2) => Some (b, t1 ++ t2, g2)
        end
    end.

Definition emit (e : event) : M unit := fun g => Some (tt, [e], g).

Definition out_of_fuel {A : Type} : M A := fun _ => None.

(** [usleep(usec)]; its return value is not used by the callers. *)
Definition usleep (usec : Z) : M unit := emit (EvUsleep usec).

Notation "x <- m ;; k" := (bind m (fun x => k))
  (at level 61, m at next level, right associativity).
Notation "m ;;; k" := (bind m (fun _ => k))
  (at level 61, right associativity).

(** ** The source *)

(** [int32_t native_add(int32_t x, int32_t y) { return x + y; }] *)
Definition native_add (x y : Z) : M Z :=
  ret (Int32.add x y).

(** The loop of [heavy_computation], entered with the current [i] and
    [sum]:
<<
  for (int32_t i = 0; i < iterations; i++) {
      sum += i;
      if (i % 1000 == 0) { sum ^= i; }
  }
>>
    It returns the final [sum]. *)
Fixpoint for_loop (fuel : nat) (iterations i sum : Z) : M Z :=
  if Int32.lt i iterations then
    match fuel with
    | O => out_of_fuel
    | S fuel' =>
        emit (EvAdd i (negb (Int32.in_rangeb (sum + i)))) ;;;
        let sum := Int32.add sum i in
        sum <- (if Int32.rems i 1000 =? 0
                then emit (EvXor i) ;;; ret (Int32.xor sum i)
                else ret sum) ;;
        for_loop fuel' iterations (Int32.add i 1) sum
    end
  else ret sum.

(** [heavy_computation]: the loop from [i = 0], [sum = 0], then
<<
  if (iterations > 0) { usleep(2000 * 1000); }
  return sum;
>> *)
Definition heavy_computation (fuel : nat) (iterations : Z) : M Z :=
  sum <- for_loop fuel iterations 0 0 ;;
  (if iterations >? 0 then usleep (2000 * 1000) else ret tt) ;;;
  ret sum.

End Program.

Arguments ret {G A} a.
Arguments bind {G A B} m k.
Arguments emit {G} e.
Arguments out_of_fuel {G A}.
Arguments usleep {G} usec.
Arguments native_add {G} x y.
Arguments for_loop {G} fuel iterations i sum.
Arguments heavy_computation {G} fuel iterations.

(** ** The unrolled loop

    What one execution of the loop body does to [sum], and the events it
    emits, as functions of the [sum] and the index [i] it is entered with. *)

Definition body_sum (sum i : Z) : Z :=
  let s := Int32.add sum i in
  if Int32.rems i 1000 =? 0 then Int32.xor s i else s.

Definition body_events (sum i : Z) : list event :=
  EvAdd i (negb (Int32.in_rangeb (sum + i)))
  :: (if Int32.rems i 1000 =? 0 then [EvXor i] else []).

Fixpoint loop_events (indices : list Z) (sum : Z) : list event :=
  match indices with
  | [] => []
  | i :: rest => body_events sum i ++ loop_events rest (body_sum sum i)
  end.

(** The indices [i], [i + 1], ..., [i + k - 1]. *)
Fixpoint zrange (i : Z) (k : nat) : list Z :=
  match k with
  | O => []
  | S k' => i :: zrange (i + 1) k'
  end.

(** ** The reference accumulation, as the interface contract words it

    A counter runs from [0] to [iterations - 1]; each step adds it to the
    accumulator modulo [2^32], read back as a signed value, and a multiple
    of 1000 is then XORed in.  The reference is written on the integers of
    [Z] alone: the remainder of the division by [2^32], and the exclusive
    or of [Z], which on signed values is the bitwise XOR in two's
    complement.  It uses none of the operators of [Int32]. *)

Definition reference_step (sum i : Z) : Z :=
  let u := (sum + i) mod 2 ^ 32 in
  let s := if u <? 2 ^ 31 then u else u - 2 ^ 32 in
  if i mod 1000 =? 0 then Z.lxor s i else s.

Definition reference_accumulation (iterations : Z) : Z :=
  fold_left reference_step (map Z.of_nat (seq 0 (Z.to_nat iterations))) 0.

(** The delay in microseconds of a delay in milliseconds. *)
Definition usec_of_msec (ms : Z) : Z := 1000 * ms.

(** What [heavy_computation] emits once its loop is over. *)
Definition sleep_events (iterations : Z) : list event :=
  if iterations >? 0 then [EvUsleep (2000 * 1000)] else [].

(** The sum of the integers below [k], computed exactly. *)
Definition triangular (k : Z) : Z := k * (k - 1) / 2.

(** The loop indices at which [sum += i] ran, in the order of the trace. *)
Definition add_sites (t : list event) : list Z :=
  flat_map (fun e => match e with EvAdd i _ => [i] | _ => [] end) t.

(** One step of a single pass over the indices that carries the [sum]
    together with the flag telling whether some addition so far left the
    int32 range. *)
Definition scan_step (acc : Z * bool) (i : Z) : Z * bool :=
  (body_sum (fst acc) i,
   snd acc || negb (Int32.in_rangeb (fst acc + i))).

(** The loop body and the whole accumulation on unbounded integers: the
    addition and the exclusive or of [Z], with nothing reduced. *)
Definition exact_step (sum i : Z) : Z :=
  let s := sum + i in
  if i mod 1000 =? 0 then Z.lxor s i else s.

Definition exact_accumulation (iterations : Z) : Z :=
  fold_left exact_step (map Z.of_nat (seq 0 (Z.to_nat iterations))) 0.

(** ** Facts on 32-bit arithmetic *)

Module Int32Facts.
Import Int32.

Ltac unfold_int32 :=
  unfold add, wrap, signed, unsigned, in_range, in_rangeb, rems, lt,
    max_signed, min_signed, half_modulus, modulus in *;
  change (2 ^ 32) with 4294967296 in *;
  change (2 ^ 31) with 2147483648 in *.

Lemma wrap_in_range (z : Z) : in_range (wrap z).
Proof.
  unfold_int32.
  pose proof (Z.mod_pos_bound (z + 2147483648) 4294967296 eq_refl). lia.
Qed.

Lemma wrap_small (z : Z) : in_range z -> wrap z = z.
Proof.
  unfold_int32. intros Hz.
  rewrite Z.mod_small by lia. lia.
Qed.

Lemma wrap_signed (z : Z) : wrap z = signed (z mod modulus).
Proof.
  unfold_int32.
  destruct (Z.ltb_spec (z mod 4294967296) 2147483648) as [Hlt | Hge];
    Z.div_mod_to_equations; lia.
Qed.

Lemma add_in_range (x y : Z) : in_range (add x y).
Proof. apply wrap_in_range. Qed.

Lemma add_exact (x y : Z) : in_range (x + y) -> add x y = x + y.
Proof. apply wrap_small. Qed.

Lemma in_rangeb_spec (z : Z) : in_rangeb z = true <-> in_range z.
Proof. unfold_int32. rewrite andb_true_iff, !Z.leb_le. tauto. Qed.

Lemma signed_in_range (u : Z) : 0 <= u < modulus -> in_range (signed u).
Proof.
  unfold_int32. intros Hu.
  destruct (Z.ltb_spec u 2147483648); lia.
Qed.

Lemma signed_unsigned (z : Z) : in_range z -> signed (unsigned z) = z.
Proof.
  unfold_int32. intros Hz.
  destruct (Z.ltb_spec (z mod 4294967296) 2147483648);
    Z.div_mod_to_equations; lia.
Qed.

Lemma unsigned_range (z : Z) : 0 <= unsigned z < modulus.
Proof. unfold unsigned. apply Z.mod_pos_bound. reflexivity. Qed.

(** The exclusive or of two 32-bit patterns is a 32-bit pattern. *)
Lemma lxor_pattern (a b : Z) :
  0 <= a < modulus -> 0 <= b < modulus -> 0 <= Z.lxor a b < modulus.
Proof.
  intros Ha Hb.
  assert (Hnn : 0 <= Z.lxor a b) by (apply Z.lxor_nonneg; lia).
  split; [exact Hnn |].
  destruct (Z.eq_dec (Z.lxor a b) 0) as [-> | Hnz]; [reflexivity |].
  unfold modulus in *.
  apply Z.log2_lt_pow2; [lia |].
  pose proof (Z.log2_lxor a b (proj1 Ha) (proj1 Hb)) as Hlog.
  assert (Hla : Z.log2 a < 32).
  { destruct (Z.eq_dec a 0) as [-> | ?]; [reflexivity |].
    apply Z.log2_lt_pow2; lia. }
  assert (Hlb : Z.log2 b < 32).
  { destruct (Z.eq_dec b 0) as [-> | ?]; [reflexivity |].
    apply Z.log2_lt_pow2; lia. }
  lia.
Qed.

Lemma xor_in_range (x y : Z) : in_range (xor x y).
Proof.
  unfold xor. apply signed_in_range, lxor_pattern; apply unsigned_range.
Qed.

Lemma xor_0_r (x : Z) : in_range x -> xor x 0 = x.
Proof.
  intros Hx. unfold xor.
  change (unsigned 0) with 0. rewrite Z.lxor_0_r.
  now apply signed_unsigned.
Qed.

(** On signed values the exclusive or of the bit patterns is the
    exclusive or of the integers in two's complement. *)
Lemma in_range_shiftr (z : Z) :
  in_range z <-> Z.shiftr z 31 = 0 \/ Z.shiftr z 31 = -1.
Proof.
  rewrite Z.shiftr_div_pow2 by lia. unfold_int32.
  Z.div_mod_to_equations. lia.
Qed.

Lemma lxor_in_range (x y : Z) :
  in_range x -> in_range y -> in_range (Z.lxor x y).
Proof.
  rewrite !in_range_shiftr, Z.shiftr_lxor.
  intros [-> | ->] [-> | ->]; vm_compute; auto.
Qed.

Lemma lxor_unsigned (x y : Z) :
  Z.lxor (unsigned x) (unsigned y) = unsigned (Z.lxor x y).
Proof.
  unfold unsigned, modulus. apply Z.bits_inj'. intros k Hk.
  rewrite Z.lxor_spec, !Z.testbit_mod_pow2, Z.lxor_spec by lia.
  destruct (k <? 32); reflexivity.
Qed.

Lemma xor_lxor (x y : Z) :
  in_range x -> in_range y -> xor x y = Z.lxor x y.
Proof.
  intros Hx Hy. unfold xor.
  rewrite lxor_unsigned.
  apply signed_unsigned, lxor_in_range; assumption.
Qed.

End Int32Facts.
(** ** The loop *)

Section Loop.

Variable G : Type.
Implicit Types (g : G) (fuel k : nat) (iterations i sum : Z).

Lemma for_loop_exit fuel iterations i sum g :
  iterations <= i ->
  for_loop fuel iterations i sum g = Some (sum, [], g).
Proof.
  intros Hle.
  assert (Hlt : Int32.lt i iterations = false) by now apply Z.ltb_ge.
  destruct fuel; simpl; rewrite Hlt; reflexivity.
Qed.

Lemma for_loop_no_fuel iterations i sum g :
  i < iterations -> for_loop 0 iterations i sum g = None.
Proof.
  intros Hlt. simpl.
  assert (Int32.lt i iterations = true) as -> by now apply Z.ltb_lt.
  reflexivity.
Qed.

(** One pass through the body, then the rest of the loop. *)
Lemma for_loop_body fuel iterations i sum g :
  i < iterations ->
  for_loop (S fuel) iterations i sum g =
    match for_loop fuel iterations (Int32.add i 1) (body_sum sum i) g with
    | None => None
    | Some (v, t, g') => Some (v, body_events sum i ++ t, g')
    end.
Proof.
  intros Hlt. simpl.
  assert (Int32.lt i iterations = true) as -> by now apply Z.ltb_lt.
  unfold bind, emit, body_sum, body_events.
  destruct (Int32.rems i 1000 =? 0); simpl;
    destruct (for_loop fuel iterations (Int32.add i 1) _ g)
      as [[[v t] g'] |]; reflexivity.
Qed.

(** With [k] indices left and at least [k] units of fuel, the loop runs
    its body on each of them in turn and returns. *)
Lemma for_loop_unroll k :
  forall fuel iterations i sum g,
    0 <= i -> i + Z.of_nat k = iterations ->
    iterations <= Int32.max_signed -> (k <= fuel)%nat ->
    for_loop fuel iterations i sum g =
      Some (fold_left body_sum (zrange i k) sum,
            loop_events (zrange i k) sum, g).
Proof.
  induction k as [| k IH]; intros fuel iterations i sum g Hi Hk Hmax Hfuel.
  - simpl. apply for_loop_exit. lia.
  - destruct fuel as [| fuel]; [lia |].
    rewrite for_loop_body by lia.
    assert (Hnext : Int32.add i 1 = i + 1).
    { apply Int32Facts.add_exact. revert Hmax.
      Int32Facts.unfold_int32. lia. }
    rewrite Hnext, (IH fuel iterations (i + 1)) by lia.
    reflexivity.
Qed.

(** More fuel does not change the outcome of a loop that returned. *)
Lemma for_loop_fuel_mono fuel :
  forall fuel' iterations i sum g r,
    (fuel <= fuel')%nat ->
    for_loop fuel iterations i sum g = Some r ->
    for_loop fuel' iterations i sum g = Some r.
Proof.
  induction fuel as [| fuel IH]; intros fuel' iterations i sum g r Hle Hrun.
  - destruct (Z.lt_ge_cases i iterations) as [Hlt | Hge].
    + rewrite for_loop_no_fuel in Hrun by assumption. discriminate.
    + rewrite for_loop_exit in Hrun |- * by assumption. assumption.
  - destruct (Z.lt_ge_cases i iterations) as [Hlt | Hge].
    + destruct fuel' as [| fuel']; [lia |].
      rewrite for_loop_body in Hrun |- * by assumption.
      destruct (for_loop fuel iterations _ _ g) as [[[v t] g'] |] eqn:Hrest;
        [| discriminate].
      rewrite (IH fuel' _ _ _ _ _ ltac:(lia) Hrest). assumption.
    + rewrite for_loop_exit in Hrun |- * by assumption. assumption.
Qed.

(** The loop hands the process state back untouched, and does the same
    from any other process state. *)
Lemma for_loop_frame fuel :
  forall iterations i sum g v t g',
    for_loop fuel iterations i sum g = Some (v, t, g') ->
    g' = g /\ forall g2, for_loop fuel iterations i sum g2 = Some (v, t, g2).
Proof.
  induction fuel as [| fuel IH]; intros iterations i sum g v t g' Hrun.
  - destruct (Z.lt_ge_cases i iterations) as [Hlt | Hge].
    + rewrite for_loop_no_fuel in Hrun by assumption. discriminate.
    + rewrite for_loop_exit in Hrun by assumption.
      injection Hrun as <- <- <-.
      split; [reflexivity |]. intros g2. now apply for_loop_exit.
  - destruct (Z.lt_ge_cases i iterations) as [Hlt | Hge].
    + rewrite for_loop_body in Hrun by assumption.
      destruct (for_loop fuel iterations _ _ g) as [[[v1 t1] g1] |] eqn:Hrest;
        [| discriminate].
      injection Hrun as <- <- <-.
      destruct (IH _ _ _ _ _ _ _ Hrest) as [-> Hany].
      split; [reflexivity |]. intros g2.
      rewrite for_loop_body, Hany by assumption. reflexivity.
    + rewrite for_loop_exit in Hrun by assumption.
      injection Hrun as <- <- <-.
      split; [reflexivity |]. intros g2. now apply for_loop_exit.
Qed.

End Loop.

Arguments for_loop_exit {G}.
Arguments for_loop_no_fuel {G}.
Arguments for_loop_body {G}.
Arguments for_loop_unroll {G}.
Arguments for_loop_fuel_mono {G}.
Arguments for_loop_frame {G}.

(** ** Index ranges and the events of the loop *)

Lemma zrange_length (k : nat) : forall i, length (zrange i k) = k.
Proof. induction k as [| k IH]; intros i; simpl; [| rewrite IH]; reflexivity. Qed.

Lemma zrange_In (k : nat) : forall i j, In j (zrange i k) <-> i <= j < i + Z.of_nat k.
Proof.
  induction k as [| k IH]; intros i j; simpl.
  - lia.
  - rewrite IH. lia.
Qed.

Lemma zrange_seq (k : nat) :
  forall a : nat, zrange (Z.of_nat a) k = map Z.of_nat (seq a k).
Proof.
  induction k as [| k IH]; intros a; simpl; [reflexivity |].
  f_equal. rewrite <- IH. f_equal. lia.
Qed.

Lemma syscalls_app (t1 t2 : list event) :
  syscalls (t1 ++ t2) = syscalls t1 ++ syscalls t2.
Proof. apply filter_app. Qed.

Lemma xor_sites_app (t1 t2 : list event) :
  xor_sites (t1 ++ t2) = xor_sites t1 ++ xor_sites t2.
Proof. apply flat_map_app. Qed.

Lemma body_runs_app (t1 t2 : list event) :
  body_runs (t1 ++ t2) = (body_runs t1 + body_runs t2)%nat.
Proof. unfold body_runs. rewrite filter_app. apply length_app. Qed.

Lemma wrapped_app (t1 t2 : list event) :
  wrapped (t1 ++ t2) = wrapped t1 || wrapped t2.
Proof. apply existsb_app. Qed.

Lemma syscalls_loop_events (indices : list Z) :
  forall sum, syscalls (loop_events indices sum) = [].
Proof.
  induction indices as [| i rest IH]; intros sum; simpl; [reflexivity |].
  destruct (Int32.rems i 1000 =? 0); simpl; apply IH.
Qed.

Lemma body_runs_loop_events (indices : list Z) :
  forall sum, body_runs (loop_events indices sum) = length indices.
Proof.
  induction indices as [| i rest IH]; intros sum; [reflexivity |].
  specialize (IH (body_sum sum i)). revert IH.
  unfold body_runs. simpl.
  destruct (Int32.rems i 1000 =? 0); simpl; intros ->; reflexivity.
Qed.

Lemma xor_sites_loop_events (indices : list Z) :
  forall sum,
    xor_sites (loop_events indices sum) =
      filter (fun i => Int32.rems i 1000 =? 0) indices.
Proof.
  induction indices as [| i rest IH]; intros sum; simpl; [reflexivity |].
  destruct (Int32.rems i 1000 =? 0); simpl; rewrite IH; reflexivity.
Qed.

(** ** The body against the reference step *)

Lemma rems_multiple (i : Z) :
  0 <= i -> (Int32.rems i 1000 =? 0) = (i mod 1000 =? 0).
Proof.
  intros Hi. unfold Int32.rems. rewrite Z.rem_mod_nonneg by lia. reflexivity.
Qed.

Lemma body_sum_reference (sum i : Z) :
  0 <= i <= Int32.max_signed -> body_sum sum i = reference_step sum i.
Proof.
  intros Hi. unfold body_sum, reference_step.
  rewrite rems_multiple by lia.
  assert (Hadd : Int32.add sum i =
                 (let u := (sum + i) mod 2 ^ 32 in
                  if u <? 2 ^ 31 then u else u - 2 ^ 32)).
  { unfold Int32.add. rewrite Int32Facts.wrap_signed. reflexivity. }
  cbv zeta in Hadd |- *. rewrite <- Hadd.
  destruct (i mod 1000 =? 0); [| reflexivity].
  apply Int32Facts.xor_lxor; [apply Int32Facts.add_in_range |].
  revert Hi. Int32Facts.unfold_int32. lia.
Qed.

Lemma fold_body_sum_reference (indices : list Z) :
  forall sum,
    Forall (fun i => 0 <= i <= Int32.max_signed) indices ->
    fold_left body_sum indices sum = fold_left reference_step indices sum.
Proof.
  induction indices as [| i rest IH]; intros sum Hnn; simpl; [reflexivity |].
  inversion Hnn as [| ? ? Hi Hrest]; subst.
  rewrite body_sum_reference by assumption. now apply IH.
Qed.

Lemma zrange_int32 (iterations : Z) :
  iterations <= Int32.max_signed ->
  Forall (fun i => 0 <= i <= Int32.max_signed)
    (zrange 0 (Z.to_nat iterations)).
Proof.
  intros Hmax. apply Forall_forall. intros j Hj.
  apply zrange_In in Hj. lia.
Qed.

Lemma filter_multiples_ext (indices : list Z) :
  Forall (fun i => 0 <= i) indices ->
  filter (fun i => Int32.rems i 1000 =? 0) indices =
    filter (fun i => i mod 1000 =? 0) indices.
Proof.
  induction 1 as [| i rest Hi _ IH]; simpl; [reflexivity |].
  rewrite rems_multiple, IH by assumption. reflexivity.
Qed.

Lemma zrange_nonneg (k : nat) (i : Z) :
  0 <= i -> Forall (fun j => 0 <= j) (zrange i k).
Proof.
  intros Hi. apply Forall_forall. intros j Hj.
  apply zrange_In in Hj. lia.
Qed.

Lemma body_sum_in_range (sum i : Z) : Int32.in_range (body_sum sum i).
Proof.
  unfold body_sum. destruct (Int32.rems i 1000 =? 0).
  - apply Int32Facts.xor_in_range.
  - apply Int32Facts.add_in_range.
Qed.

Lemma fold_body_sum_in_range (indices : list Z) :
  forall sum,
    Int32.in_range sum -> Int32.in_range (fold_left body_sum indices sum).
Proof.
  induction indices as [| i rest IH]; intros sum Hsum; simpl; [assumption |].
  apply IH, body_sum_in_range.
Qed.

(** ** heavy_computation, unrolled *)

Lemma body_runs_sleep_events (iterations : Z) :
  body_runs (sleep_events iterations) = O.
Proof. unfold sleep_events. destruct (iterations >? 0); reflexivity. Qed.

Lemma xor_sites_sleep_events (iterations : Z) :
  xor_sites (sleep_events iterations) = [].
Proof. unfold sleep_events. destruct (iterations >? 0); reflexivity. Qed.

Lemma wrapped_sleep_events (iterations : Z) :
  wrapped (sleep_events iterations) = false.
Proof. unfold sleep_events. destruct (iterations >? 0); reflexivity. Qed.

Lemma heavy_computation_unroll {G : Type} (fuel : nat) (iterations : Z) (g : G) :
  iterations <= Int32.max_signed ->
  (Z.to_nat iterations <= fuel)%nat ->
  heavy_computation fuel iterations g =
    Some (fold_left body_sum (zrange 0 (Z.to_nat iterations)) 0,
          loop_events (zrange 0 (Z.to_nat iterations)) 0
            ++ sleep_events iterations,
          g).
Proof.
  intros Hmax Hfuel. unfold heavy_computation, bind, sleep_events.
  destruct (Z.le_gt_cases iterations 0) as [Hle | Hgt].
  - rewrite for_loop_exit by assumption.
    replace (Z.to_nat iterations) with O by lia.
    assert ((iterations >? 0) = false) as -> by lia.
    reflexivity.
  - rewrite (for_loop_unroll (Z.to_nat iterations)) by lia.
    assert ((iterations >? 0) = true) as -> by lia.
    unfold usleep, emit, ret. simpl. reflexivity.
Qed.

Ltac int32_range := Int32Facts.unfold_int32; lia.

(** ** The interface contract *)

(** C1: for every 32-bit signed [iterations > 0], [heavy_computation]
    returns the reference accumulation: a counter runs from [0] to
    [iterations - 1], each step adds it to the accumulator with 32-bit
    signed wrap-around and, exactly at the multiples of 1000 ([0]
    included), XORs it in after the addition, starting from [0].  The body
    runs [iterations] times and the XOR runs at the multiples of 1000
    among the indices, and nowhere else. *)
Theorem heavy_computation_reference
    {G : Type} (iterations : Z) (fuel : nat) (g : G) :
  Int32.in_range iterations -> 0 < iterations ->
  (Z.to_nat iterations <= fuel)%nat ->
  exists t,
    heavy_computation fuel iterations g =
      Some (reference_accumulation iterations, t, g)
    /\ body_runs t = Z.to_nat iterations
    /\ xor_sites t =
         filter (fun i => i mod 1000 =? 0)
           (map Z.of_nat (seq 0 (Z.to_nat iterations))).
Proof.
  intros Hrange Hpos Hfuel.
  assert (Hmax : iterations <= Int32.max_signed) by apply Hrange.
  rewrite (heavy_computation_unroll fuel iterations g Hmax Hfuel).
  pose proof (zrange_nonneg (Z.to_nat iterations) 0 (Z.le_refl 0)) as Hnn.
  eexists. split; [| split].
  - rewrite fold_body_sum_reference by now apply zrange_int32.
    unfold reference_accumulation.
    rewrite <- (zrange_seq (Z.to_nat iterations) 0). reflexivity.
  - rewrite body_runs_app, body_runs_loop_events, zrange_length.
    rewrite body_runs_sleep_events. lia.
  - rewrite xor_sites_app, xor_sites_loop_events.
    rewrite filter_multiples_ext by assumption.
    rewrite <- (zrange_seq (Z.to_nat iterations) 0).
    rewrite xor_sites_sleep_events. apply app_nil_r.
Qed.

(** The reference at 65537, evaluated: the last addition leaves the
    range and the accumulation comes back negative. *)
Lemma reference_accumulation_65537 :
  reference_accumulation 65537 = -2147479320.
Proof.
  unfold reference_accumulation.
  rewrite <- (zrange_seq (Z.to_nat 65537) 0).
  vm_compute. reflexivity.
Qed.

Lemma heavy_computation_reference_witness :
  Int32.in_range 65537 /\ 0 < 65537 /\
  (Z.to_nat 65537 <= Z.to_nat 65537)%nat /\
  exists t,
    heavy_computation (Z.to_nat 65537) 65537 tt =
      Some (reference_accumulation 65537, t, tt)
    /\ body_runs t = Z.to_nat 65537
    /\ xor_sites t =
         filter (fun i => i mod 1000 =? 0)
           (map Z.of_nat (seq 0 (Z.to_nat 65537))).
Proof.
  assert (Hr : Int32.in_range 65537) by int32_range.
  assert (Hp : 0 < 65537) by lia.
  assert (Hf : (Z.to_nat 65537 <= Z.to_nat 65537)%nat) by apply Nat.le_refl.
  exact (conj Hr (conj Hp (conj Hf
           (heavy_computation_reference 65537 (Z.to_nat 65537) tt
              Hr Hp Hf)))).
Defined.

(** C2: for all 32-bit signed [x] and [y], [native_add(x, y)] returns
    [(x + y) mod 2^32] read back as a signed 32-bit integer: it neither
    traps (a value is returned, and it is a 32-bit signed integer) nor
    saturates; in particular [native_add(INT32_MAX, 1) = INT32_MIN]. *)
Theorem native_add_wraparound {G : Type} (x y : Z) (g : G) :
  Int32.in_range x -> Int32.in_range y ->
  native_add x y g =
    Some (let u := (x + y) mod 2 ^ 32 in
          if u <? 2 ^ 31 then u else u - 2 ^ 32, [], g)
  /\ (exists v, native_add x y g = Some (v, [], g) /\ Int32.in_range v)
  /\ native_add (2 ^ 31 - 1) 1 g = Some (- 2 ^ 31, [], g).
Proof.
  intros Hx Hy. unfold native_add, ret, Int32.add.
  split; [| split].
  - rewrite Int32Facts.wrap_signed. reflexivity.
  - eexists. split; [reflexivity | apply Int32Facts.wrap_in_range].
  - reflexivity.
Qed.

Lemma native_add_wraparound_witness :
  Int32.in_range 2147483647 /\ Int32.in_range 2 /\
  native_add 2147483647 2 tt = Some (-2147483647, [], tt).
Proof.
  assert (Hx : Int32.in_range 2147483647) by int32_range.
  assert (Hy : Int32.in_range 2) by int32_range.
  exact (conj Hx (conj Hy
           (proj1 (native_add_wraparound 2147483647 2 tt Hx Hy)))).
Defined.

(** C3: for every 32-bit signed [iterations <= 0] (zero, or negative such
    as [-5]), [heavy_computation] returns 0 having emitted nothing: the
    loop body does not run, which is why no fuel is asked for, and there
    is no sleep. *)
Theorem heavy_computation_nonpositive
    {G : Type} (iterations : Z) (fuel : nat) (g : G) :
  Int32.in_range iterations -> iterations <= 0 ->
  heavy_computation fuel iterations g = Some (0, [], g).
Proof.
  intros _ Hle. unfold heavy_computation, bind.
  rewrite for_loop_exit by assumption.
  assert ((iterations >? 0) = false) as -> by lia.
  reflexivity.
Qed.

Lemma heavy_computation_nonpositive_witness :
  Int32.in_range (-5) /\ -5 <= 0 /\
  heavy_computation 0 (-5) tt = Some (0, [], tt).
Proof.
  assert (Hr : Int32.in_range (-5)) by int32_range.
  assert (Hle : -5 <= 0) by lia.
  exact (conj Hr (conj Hle
           (heavy_computation_nonpositive (-5) 0%nat tt Hr Hle))).
Defined.

Lemma syscalls_sleep_events (iterations : Z) :
  syscalls (sleep_events iterations) = sleep_events iterations.
Proof. unfold sleep_events. destruct (iterations >? 0); reflexivity. Qed.

(** C4: [heavy_computation] sleeps if and only if [iterations > 0]; the
    [usleep] call then comes after all the events of the loop, asks for
    exactly 2000 milliseconds whatever [iterations] is, and nothing else
    happens: the loop makes no system call, the process state is handed
    back as received, and [native_add] emits nothing at all. *)
Theorem sleep_iff_positive_after_loop
    {G : Type} (iterations : Z) (fuel : nat) (g : G) :
  Int32.in_range iterations ->
  (Z.to_nat iterations <= fuel)%nat ->
  (exists v t_loop t_sleep,
      heavy_computation fuel iterations g = Some (v, t_loop ++ t_sleep, g)
      /\ syscalls t_loop = []
      /\ body_runs t_loop = Z.to_nat iterations
      /\ syscalls (t_loop ++ t_sleep) = t_sleep
      /\ (0 < iterations -> t_sleep = [EvUsleep (usec_of_msec 2000)])
      /\ (iterations <= 0 -> t_sleep = [])
      /\ (t_sleep <> [] <-> 0 < iterations))
  /\ forall x y, exists v, native_add x y g = Some (v, [], g).
Proof.
  intros Hrange Hfuel.
  assert (Hmax : iterations <= Int32.max_signed) by apply Hrange.
  split.
  - rewrite (heavy_computation_unroll fuel iterations g Hmax Hfuel).
    eexists _, _, _. split; [reflexivity |].
    split; [apply syscalls_loop_events |].
    split; [now rewrite body_runs_loop_events, zrange_length |].
    split.
    { rewrite syscalls_app, syscalls_loop_events, syscalls_sleep_events.
      reflexivity. }
    unfold sleep_events.
    destruct (Z.gtb_spec iterations 0) as [Hgt | Hle].
    + split; [reflexivity |]. split; [lia |].
      split; [lia | discriminate].
    + split; [lia |]. split; [reflexivity |].
      split; [congruence | lia].
  - intros x y. eexists. reflexivity.
Qed.

Lemma sleep_iff_positive_after_loop_witness :
  Int32.in_range 3 /\ (Z.to_nat 3 <= 4)%nat /\
  exists v t_loop t_sleep,
    heavy_computation 4 3 tt = Some (v, t_loop ++ t_sleep, tt)
    /\ syscalls t_loop = []
    /\ body_runs t_loop = Z.to_nat 3
    /\ syscalls (t_loop ++ t_sleep) = t_sleep
    /\ (0 < 3 -> t_sleep = [EvUsleep (usec_of_msec 2000)])
    /\ (3 <= 0 -> t_sleep = [])
    /\ (t_sleep <> [] <-> 0 < 3).
Proof.
  assert (Hr : Int32.in_range 3) by int32_range.
  assert (Hf : (Z.to_nat 3 <= 4)%nat) by (simpl; lia).
  exact (conj Hr (conj Hf
           (proj1 (sleep_iff_positive_after_loop 3 4%nat tt Hr Hf)))).
Defined.

(** C5: [heavy_computation(1)] returns 0.  The body runs once, at
    [i = 0]: the addition leaves [sum = 0 + 0], the XOR with 0 leaves 0,
    and the sleep follows.  One unit of fuel is enough and none is not. *)
Theorem heavy_computation_one {G : Type} (fuel : nat) (g : G) :
  heavy_computation (S fuel) 1 g =
    Some (0, [EvAdd 0 false; EvXor 0; EvUsleep 2000000], g)
  /\ heavy_computation 0 1 g = None.
Proof.
  split; [| reflexivity].
  rewrite heavy_computation_unroll; [reflexivity | int32_range | simpl; lia].
Qed.

(** C6: in [heavy_computation(2000)] the XOR runs at the loop indices 0
    and 1000 and at no other, the body runs 2000 times, and the value
    returned is the reference accumulation for 2000, which is 1998464. *)
Theorem heavy_computation_2000 {G : Type} (extra : nat) (g : G) :
  exists t,
    heavy_computation (2000 + extra) 2000 g =
      Some (reference_accumulation 2000, t, g)
    /\ xor_sites t = [0; 1000]
    /\ body_runs t = 2000%nat
    /\ reference_accumulation 2000 = 1998464.
Proof.
  rewrite heavy_computation_unroll;
    [| int32_range | change (Z.to_nat 2000) with 2000%nat; lia].
  eexists. split; [| split; [| split]].
  - replace (reference_accumulation 2000)
      with (fold_left body_sum (zrange 0 (Z.to_nat 2000)) 0)
      by (vm_compute; reflexivity).
    reflexivity.
  - vm_compute. reflexivity.
  - vm_compute. reflexivity.
  - vm_compute. reflexivity.
Qed.

(** ** Fuel and totality *)

Lemma heavy_computation_inv
    {G : Type} (fuel : nat) (iterations : Z) (g g' : G) (v : Z) (t : list event) :
  heavy_computation fuel iterations g = Some (v, t, g') ->
  exists t_loop,
    for_loop fuel iterations 0 0 g = Some (v, t_loop, g')
    /\ t = t_loop ++ sleep_events iterations.
Proof.
  unfold heavy_computation, bind, sleep_events.
  destruct (for_loop fuel iterations 0 0 g) as [[[v0 t0] g0] |];
    [| discriminate].
  destruct (iterations >? 0); simpl; intros Hrun;
    injection Hrun as <- <- <-; eexists; split; reflexivity.
Qed.

(** Fuel only bounds a run: two runs that return, whatever fuel each was
    given, return the same outcome. *)
Lemma heavy_computation_fuel_irrelevant
    {G : Type} (iterations : Z) (fuel1 fuel2 : nat) (g : G)
    (r1 r2 : Z * list event * G) :
  heavy_computation fuel1 iterations g = Some r1 ->
  heavy_computation fuel2 iterations g = Some r2 ->
  r1 = r2.
Proof.
  destruct r1 as [[v1 t1] g1], r2 as [[v2 t2] g2]. intros Hrun1 Hrun2.
  apply heavy_computation_inv in Hrun1 as [l1 [Hloop1 ->]].
  apply heavy_computation_inv in Hrun2 as [l2 [Hloop2 ->]].
  apply (for_loop_fuel_mono fuel1 (Nat.max fuel1 fuel2)) in Hloop1; [| lia].
  apply (for_loop_fuel_mono fuel2 (Nat.max fuel1 fuel2)) in Hloop2; [| lia].
  rewrite Hloop1 in Hloop2. injection Hloop2 as <- <- <-. reflexivity.
Qed.

(** C8: both functions are total on 32-bit signed inputs.  [native_add]
    returns a 32-bit signed value for all [x] and [y]; for every
    [iterations], [INT32_MAX] included, some amount of fuel makes
    [heavy_computation] return, and what it returns is a 32-bit signed
    value.  There is no error outcome: an addition that leaves the range
    wraps and the run goes on, as with [iterations = 65537], where the
    last addition overflows and the call returns [-2147479320]. *)
Theorem calls_total {G : Type} (x y iterations : Z) (g : G) :
  Int32.in_range x -> Int32.in_range y -> Int32.in_range iterations ->
  (exists v, native_add x y g = Some (v, [], g) /\ Int32.in_range v)
  /\ (exists fuel v t,
        heavy_computation fuel iterations g = Some (v, t, g)
        /\ Int32.in_range v)
  /\ (exists fuel v t,
        heavy_computation fuel Int32.max_signed g = Some (v, t, g)
        /\ Int32.in_range v)
  /\ (exists fuel t,
        heavy_computation fuel 65537 g = Some (-2147479320, t, g)
        /\ wrapped t = true).
Proof.
  intros Hx Hy Hrange.
  assert (Hzero : Int32.in_range 0) by int32_range.
  split; [| split; [| split]].
  - eexists. split; [reflexivity | apply Int32Facts.add_in_range].
  - exists (Z.to_nat iterations). eexists _, _.
    rewrite heavy_computation_unroll; [| apply Hrange | lia].
    split; [reflexivity | now apply fold_body_sum_in_range].
  - exists (Z.to_nat Int32.max_signed). eexists _, _.
    rewrite heavy_computation_unroll; [| lia | lia].
    split; [reflexivity | now apply fold_body_sum_in_range].
  - exists (Z.to_nat 65537). eexists.
    rewrite heavy_computation_unroll; [| int32_range | lia].
    split.
    + replace (fold_left body_sum (zrange 0 (Z.to_nat 65537)) 0)
        with (-2147479320) by (vm_compute; reflexivity).
      reflexivity.
    + rewrite wrapped_app, wrapped_sleep_events, orb_false_r.
      vm_compute. reflexivity.
Qed.

Lemma calls_total_witness :
  Int32.in_range 2147483647 /\ Int32.in_range (-2147483648) /\
  Int32.in_range 2147483647 /\
  (exists v,
      native_add 2147483647 (-2147483648) tt = Some (v, [], tt)
      /\ Int32.in_range v)
  /\ (exists fuel v t,
        heavy_computation fuel 2147483647 tt = Some (v, t, tt)
        /\ Int32.in_range v).
Proof.
  assert (Hmax : Int32.in_range 2147483647) by int32_range.
  assert (Hmin : Int32.in_range (-2147483648)) by int32_range.
  pose proof (calls_total 2147483647 (-2147483648) 2147483647 tt
                Hmax Hmin Hmax) as Htotal.
  exact (conj Hmax (conj Hmin (conj Hmax
           (conj (proj1 Htotal) (proj1 (proj2 Htotal)))))).
Defined.

(** ** Small iteration counts *)

Lemma triangular_succ (k : Z) : triangular (k + 1) = triangular k + k.
Proof.
  unfold triangular.
  replace ((k + 1) * (k + 1 - 1)) with (k * (k - 1) + k * 2) by ring.
  rewrite Z.div_add by lia. reflexivity.
Qed.

Lemma triangular_bounds (k : Z) :
  0 <= k <= 1000 -> 0 <= triangular k <= 499500.
Proof.
  intros Hk. unfold triangular.
  assert (0 <= k * (k - 1) <= 999000) by nia.
  Z.div_mod_to_equations. lia.
Qed.

Lemma rems_below_1000 (i : Z) :
  0 <= i < 1000 -> (Int32.rems i 1000 =? 0) = (i =? 0).
Proof.
  intros Hi. unfold Int32.rems. rewrite Z.rem_small by assumption.
  reflexivity.
Qed.

(** Below index 1000 an addition is exact, and the only XOR is with 0. *)
Lemma body_small (i : Z) :
  0 <= i < 1000 ->
  body_sum (triangular i) i = triangular (i + 1)
  /\ wrapped (body_events (triangular i) i) = false.
Proof.
  intros Hi.
  pose proof (triangular_bounds i ltac:(lia)) as Hti.
  assert (Hexact : Int32.in_range (triangular i + i)) by int32_range.
  unfold body_sum, body_events.
  rewrite rems_below_1000, Int32Facts.add_exact by assumption.
  apply Int32Facts.in_rangeb_spec in Hexact. rewrite Hexact.
  rewrite <- triangular_succ.
  split.
  - destruct (Z.eqb_spec i 0) as [-> | Hnz]; [| reflexivity].
    apply Int32Facts.xor_0_r.
    pose proof (triangular_bounds (0 + 1) ltac:(lia)). int32_range.
  - destruct (i =? 0); reflexivity.
Qed.

Lemma loop_small (k : nat) :
  forall i,
    0 <= i -> i + Z.of_nat k <= 1000 ->
    fold_left body_sum (zrange i k) (triangular i)
      = triangular (i + Z.of_nat k)
    /\ wrapped (loop_events (zrange i k) (triangular i)) = false.
Proof.
  induction k as [| k IH]; intros i Hi Hend.
  - simpl. rewrite Z.add_0_r. split; reflexivity.
  - destruct (body_small i ltac:(lia)) as [Hsum Hev].
    destruct (IH (i + 1) ltac:(lia) ltac:(lia)) as [IHsum IHev].
    cbn [zrange fold_left loop_events].
    rewrite wrapped_app, Hsum, Hev, IHsum, IHev.
    split; [f_equal; lia | reflexivity].
Qed.

Lemma filter_none {A : Type} (f : A -> bool) (l : list A) :
  (forall a, In a l -> f a = false) -> filter f l = [].
Proof.
  induction l as [| a l IH]; intros Hf; simpl; [reflexivity |].
  rewrite (Hf a (or_introl eq_refl)). apply IH.
  intros b Hb. apply Hf. now right.
Qed.

Lemma multiples_below_1000 (k : nat) :
  (1 <= k)%nat -> Z.of_nat k <= 1000 ->
  filter (fun i => Int32.rems i 1000 =? 0) (zrange 0 k) = [0].
Proof.
  intros Hk Hend. destruct k as [| k]; [lia |].
  cbn [zrange filter]. change (Int32.rems 0 1000 =? 0) with true.
  cbv iota. f_equal. apply filter_none. intros j Hj.
  apply zrange_In in Hj.
  rewrite rems_below_1000 by lia. lia.
Qed.

(** C10: for [1 <= iterations <= 1000], [heavy_computation] returns the
    triangular number [iterations * (iterations - 1) / 2], computed
    exactly: no addition wraps, the XOR runs at [i = 0] only, and XOR with
    0 leaves the accumulator as it is. *)
Theorem heavy_computation_triangular
    {G : Type} (iterations : Z) (fuel : nat) (g : G) :
  1 <= iterations <= 1000 ->
  (Z.to_nat iterations <= fuel)%nat ->
  exists t,
    heavy_computation fuel iterations g =
      Some (iterations * (iterations - 1) / 2, t, g)
    /\ wrapped t = false
    /\ xor_sites t = [0]
    /\ (forall sum, Int32.in_range sum -> Int32.xor sum 0 = sum).
Proof.
  intros Hn Hfuel.
  rewrite heavy_computation_unroll; [| int32_range | assumption].
  destruct (loop_small (Z.to_nat iterations) 0 ltac:(lia) ltac:(lia))
    as [Hsum Hev].
  change (triangular 0) with 0 in Hsum, Hev.
  eexists. split; [| split; [| split]].
  - rewrite Hsum. unfold triangular.
    replace (0 + Z.of_nat (Z.to_nat iterations)) with iterations by lia.
    reflexivity.
  - now rewrite wrapped_app, Hev, wrapped_sleep_events.
  - rewrite xor_sites_app, xor_sites_loop_events, xor_sites_sleep_events.
    rewrite multiples_below_1000 by lia. reflexivity.
  - apply Int32Facts.xor_0_r.
Qed.

Lemma heavy_computation_triangular_witness :
  1 <= 1000 <= 1000 /\ (Z.to_nat 1000 <= Z.to_nat 1000)%nat /\
  exists t,
    heavy_computation (Z.to_nat 1000) 1000 tt =
      Some (1000 * (1000 - 1) / 2, t, tt)
    /\ wrapped t = false
    /\ xor_sites t = [0]
    /\ (forall sum, Int32.in_range sum -> Int32.xor sum 0 = sum).
Proof.
  assert (Hn : 1 <= 1000 <= 1000) by lia.
  assert (Hf : (Z.to_nat 1000 <= Z.to_nat 1000)%nat) by lia.
  exact (conj Hn (conj Hf
           (heavy_computation_triangular 1000 (Z.to_nat 1000) tt Hn Hf))).
Defined.

(** ** Further properties of [native_add] *)

Lemma wrap_congr (a b : Z) :
  a mod Int32.modulus = b mod Int32.modulus -> Int32.wrap a = Int32.wrap b.
Proof. intros Hab. rewrite !Int32Facts.wrap_signed, Hab. reflexivity. Qed.

Lemma wrap_mod (a : Z) :
  Int32.wrap a mod Int32.modulus = a mod Int32.modulus.
Proof.
  unfold Int32.wrap.
  Int32Facts.unfold_int32. Z.div_mod_to_equations. lia.
Qed.

Lemma add_assoc (x y z : Z) :
  Int32.add (Int32.add x y) z = Int32.add x (Int32.add y z).
Proof.
  unfold Int32.add. apply wrap_congr.
  rewrite <- Z.add_mod_idemp_l, wrap_mod, Z.add_mod_idemp_l
    by (unfold Int32.modulus; lia).
  rewrite <- (Z.add_mod_idemp_r x (Int32.wrap (y + z))), wrap_mod,
    Z.add_mod_idemp_r by (unfold Int32.modulus; lia).
  f_equal. lia.
Qed.

Lemma add3_wrap (x y z : Z) :
  Int32.add (Int32.add x y) z = Int32.wrap (x + y + z).
Proof.
  unfold Int32.add. apply wrap_congr.
  rewrite <- Z.add_mod_idemp_l, wrap_mod, Z.add_mod_idemp_l
    by (unfold Int32.modulus; lia).
  reflexivity.
Qed.

(** X1: [native_add] is commutative and associative, overflow or not.
    The two orders of the arguments return the same value, and adding
    three numbers by two calls returns, whichever two are added first,
    [(x + y + z) mod 2^32] read back as a signed value.  In each case the
    calls emit nothing and hand the process state back. *)
Theorem native_add_comm_assoc {G : Type} (x y z : Z) (g : G) :
  (exists v,
      native_add x y g = Some (v, [], g)
      /\ native_add y x g = Some (v, [], g))
  /\ (let v3 := let u := (x + y + z) mod 2 ^ 32 in
                if u <? 2 ^ 31 then u else u - 2 ^ 32 in
      bind (native_add x y) (fun a => native_add a z) g = Some (v3, [], g)
      /\ bind (native_add y z) (fun b => native_add x b) g
           = Some (v3, [], g)).
Proof.
  split.
  - exists (Int32.add x y). unfold native_add, ret.
    split; [reflexivity |]. unfold Int32.add. now rewrite Z.add_comm.
  - cbv zeta. unfold native_add, bind, ret. cbn [app].
    rewrite <- add_assoc, add3_wrap, Int32Facts.wrap_signed.
    split; reflexivity.
Qed.

(** X2: on 32-bit signed [x] and [y], [native_add] returns the exact sum
    when it fits; a sum above [INT32_MAX] comes back lowered by [2^32],
    hence negative, and a sum below [INT32_MIN] comes back raised by
    [2^32], hence non-negative. *)
Theorem native_add_overflow_cases {G : Type} (x y : Z) (g : G) :
  Int32.in_range x -> Int32.in_range y ->
  (Int32.in_range (x + y) -> native_add x y g = Some (x + y, [], g))
  /\ (Int32.max_signed < x + y ->
        native_add x y g = Some (x + y - 2 ^ 32, [], g)
        /\ x + y - 2 ^ 32 < 0)
  /\ (x + y < Int32.min_signed ->
        native_add x y g = Some (x + y + 2 ^ 32, [], g)
        /\ 0 <= x + y + 2 ^ 32).
Proof.
  intros Hx Hy. unfold native_add, ret, Int32.add.
  split; [| split].
  - intros Hfit. now rewrite Int32Facts.wrap_small.
  - intros Hhigh.
    assert (Hw : Int32.wrap (x + y) = x + y - 2 ^ 32).
    { revert Hx Hy Hhigh. Int32Facts.unfold_int32. intros.
      Z.div_mod_to_equations. lia. }
    rewrite Hw. split; [reflexivity |].
    revert Hx Hy. Int32Facts.unfold_int32. lia.
  - intros Hlow.
    assert (Hw : Int32.wrap (x + y) = x + y + 2 ^ 32).
    { revert Hx Hy Hlow. Int32Facts.unfold_int32. intros.
      Z.div_mod_to_equations. lia. }
    rewrite Hw. split; [reflexivity |].
    revert Hx Hy. Int32Facts.unfold_int32. lia.
Qed.

Lemma native_add_overflow_cases_witness :
  Int32.in_range (-2147483648) /\ Int32.in_range (-1) /\
  (-2147483648 + -1 < Int32.min_signed ->
   native_add (-2147483648) (-1) tt =
     Some (-2147483648 + -1 + 2 ^ 32, [], tt)
   /\ 0 <= -2147483648 + -1 + 2 ^ 32).
Proof.
  assert (Hx : Int32.in_range (-2147483648)) by int32_range.
  assert (Hy : Int32.in_range (-1)) by int32_range.
  exact (conj Hx (conj Hy
           (proj2 (proj2
              (native_add_overflow_cases (-2147483648) (-1) tt Hx Hy))))).
Defined.

(** ** Further properties of [heavy_computation] *)

Lemma zrange_app (a : nat) :
  forall (b : nat) (i : Z),
    zrange i (a + b) = zrange i a ++ zrange (i + Z.of_nat a) b.
Proof.
  induction a as [| a IH]; intros b i.
  - simpl. now rewrite Z.add_0_r.
  - cbn [Nat.add zrange app]. rewrite IH. do 3 f_equal. lia.
Qed.

Lemma loop_events_app (l1 l2 : list Z) :
  forall sum,
    loop_events (l1 ++ l2) sum =
      loop_events l1 sum ++ loop_events l2 (fold_left body_sum l1 sum).
Proof.
  induction l1 as [| i l1 IH]; intros sum; simpl; [reflexivity |].
  rewrite IH.
  destruct (Int32.rems i 1000 =? 0); simpl; reflexivity.
Qed.

Lemma sleep_events_succ (i : Z) :
  0 <= i -> sleep_events (i + 1) = [EvUsleep 2000000].
Proof.
  intros Hi. unfold sleep_events.
  assert ((i + 1 >? 0) = true) as -> by lia. reflexivity.
Qed.

(** X3: one more iteration is one more pass through the body.  For
    [0 <= n < INT32_MAX], [heavy_computation(n + 1)] returns what the loop
    body makes, at index [n], of the value [heavy_computation(n)] returns,
    and its trace is that of the loop of [heavy_computation(n)] followed
    by the events of that pass and the sleep. *)
Theorem heavy_computation_step {G : Type} (n : Z) (fuel : nat) (g : G) :
  0 <= n < Int32.max_signed ->
  (Z.to_nat (n + 1) <= fuel)%nat ->
  exists v t,
    heavy_computation fuel n g = Some (v, t ++ sleep_events n, g)
    /\ heavy_computation fuel (n + 1) g =
         Some (body_sum v n,
               t ++ body_events v n ++ [EvUsleep 2000000], g).
Proof.
  intros Hn Hfuel.
  rewrite (heavy_computation_unroll fuel n) by lia.
  rewrite (heavy_computation_unroll fuel (n + 1)) by lia.
  eexists _, _. split; [reflexivity |].
  replace (Z.to_nat (n + 1)) with (Z.to_nat n + 1)%nat by lia.
  rewrite zrange_app, fold_left_app, loop_events_app.
  replace (0 + Z.of_nat (Z.to_nat n)) with n by lia.
  cbn [zrange fold_left loop_events].
  rewrite (sleep_events_succ n) by lia.
  rewrite app_nil_r, <- app_assoc. reflexivity.
Qed.

Lemma heavy_computation_step_witness :
  0 <= 1000 < Int32.max_signed /\ (Z.to_nat (1000 + 1) <= 1001)%nat /\
  exists v t,
    heavy_computation 1001 1000 tt = Some (v, t ++ sleep_events 1000, tt)
    /\ heavy_computation 1001 (1000 + 1) tt =
         Some (body_sum v 1000,
               t ++ body_events v 1000 ++ [EvUsleep 2000000], tt).
Proof.
  assert (Hn : 0 <= 1000 < Int32.max_signed) by int32_range.
  assert (Hf : (Z.to_nat (1000 + 1) <= 1001)%nat) by lia.
  exact (conj Hn (conj Hf (heavy_computation_step 1000 1001%nat tt Hn Hf))).
Defined.

Lemma add_sites_app (t1 t2 : list event) :
  add_sites (t1 ++ t2) = add_sites t1 ++ add_sites t2.
Proof. apply flat_map_app. Qed.

Lemma add_sites_loop_events (indices : list Z) :
  forall sum, add_sites (loop_events indices sum) = indices.
Proof.
  induction indices as [| i rest IH]; intros sum; simpl; [reflexivity |].
  destruct (Int32.rems i 1000 =? 0); simpl; rewrite IH; reflexivity.
Qed.

Lemma add_sites_sleep_events (iterations : Z) :
  add_sites (sleep_events iterations) = [].
Proof. unfold sleep_events. destruct (iterations >? 0); reflexivity. Qed.

(** In the events of the loop, whatever stands before an XOR ends with
    the addition at the same index. *)
Lemma xor_follows_add (indices : list Z) :
  forall sum t1 i t2,
    loop_events indices sum = t1 ++ EvXor i :: t2 ->
    exists t0 ovf, t1 = t0 ++ [EvAdd i ovf].
Proof.
  induction indices as [| j rest IH]; intros sum t1 i t2 Hsplit.
  - destruct t1; discriminate.
  - cbn [loop_events] in Hsplit. unfold body_events in Hsplit.
    destruct t1 as [| e t1]; [discriminate |].
    injection Hsplit as <- Hsplit.
    destruct (Int32.rems j 1000 =? 0).
    + destruct t1 as [| e t1].
      * injection Hsplit as <- _. eexists [], _. reflexivity.
      * injection Hsplit as <- Hsplit.
        destruct (IH _ _ _ _ Hsplit) as (t0 & ovf & ->).
        eexists (_ :: _ :: t0), ovf. reflexivity.
    + destruct (IH _ _ _ _ Hsplit) as (t0 & ovf & ->).
      eexists (_ :: t0), ovf. reflexivity.
Qed.

(** An XOR found in the whole trace lies among the events of the loop. *)
Lemma xor_before_sleep (t_loop t1 t2 : list event) (i iterations : Z) :
  t_loop ++ sleep_events iterations = t1 ++ EvXor i :: t2 ->
  exists t2', t_loop = t1 ++ EvXor i :: t2'.
Proof.
  unfold sleep_events. destruct (iterations >? 0).
  - destruct (exists_last (l := EvXor i :: t2) ltac:(discriminate))
      as (front & e & Hlast).
    rewrite Hlast, app_assoc. intros Hsplit.
    apply app_inj_tail in Hsplit as [-> <-].
    destruct t2 as [| e2 t2].
    + destruct front as [| e1 [| e3 front]]; discriminate.
    + destruct front as [| e1 front]; [discriminate |].
      injection Hlast as <- Hlast. eexists. reflexivity.
  - rewrite app_nil_r. intros ->. eexists. reflexivity.
Qed.

(** X4: the loop visits the indices [0, 1, ..., iterations - 1] in
    ascending order, each once: these are the indices of the additions of
    the trace, in order.  Every occurrence of an XOR in the trace comes
    right after the addition at the same index: whatever way the trace is
    cut in front of an XOR, the part before it ends with that addition. *)
Theorem loop_visits_in_order
    {G : Type} (iterations : Z) (fuel : nat) (g : G) :
  Int32.in_range iterations ->
  (Z.to_nat iterations <= fuel)%nat ->
  exists v t,
    heavy_computation fuel iterations g = Some (v, t, g)
    /\ add_sites t = map Z.of_nat (seq 0 (Z.to_nat iterations))
    /\ forall t1 i t2,
         t = t1 ++ EvXor i :: t2 ->
         exists t0 ovf, t1 = t0 ++ [EvAdd i ovf].
Proof.
  intros Hrange Hfuel.
  rewrite heavy_computation_unroll; [| apply Hrange | assumption].
  eexists _, _. split; [reflexivity |]. split.
  - rewrite add_sites_app, add_sites_loop_events, add_sites_sleep_events.
    rewrite app_nil_r. apply (zrange_seq _ 0).
  - intros t1 i t2 Hsplit.
    apply xor_before_sleep in Hsplit as [t2' Hsplit].
    exact (xor_follows_add _ _ _ _ _ Hsplit).
Qed.

Lemma loop_visits_in_order_witness :
  Int32.in_range 1001 /\ (Z.to_nat 1001 <= Z.to_nat 1001)%nat /\
  exists v t,
    heavy_computation (Z.to_nat 1001) 1001 tt = Some (v, t, tt)
    /\ add_sites t = map Z.of_nat (seq 0 (Z.to_nat 1001))
    /\ forall t1 i t2,
         t = t1 ++ EvXor i :: t2 ->
         exists t0 ovf, t1 = t0 ++ [EvAdd i ovf].
Proof.
  assert (Hr : Int32.in_range 1001) by int32_range.
  assert (Hf : (Z.to_nat 1001 <= Z.to_nat 1001)%nat) by apply Nat.le_refl.
  exact (conj Hr (conj Hf
           (loop_visits_in_order 1001 (Z.to_nat 1001) tt Hr Hf))).
Defined.

(** ** Where the additions start to overflow *)

Lemma wrapped_body_events (sum i : Z) :
  wrapped (body_events sum i) = negb (Int32.in_rangeb (sum + i)).
Proof.
  unfold body_events, wrapped.
  destruct (Int32.rems i 1000 =? 0); simpl; now rewrite !orb_false_r.
Qed.

Lemma fold_scan_step (indices : list Z) :
  forall sum w,
    fold_left scan_step indices (sum, w) =
      (fold_left body_sum indices sum,
       w || wrapped (loop_events indices sum)).
Proof.
  induction indices as [| i rest IH]; intros sum w;
    cbn [fold_left loop_events].
  - now rewrite orb_false_r.
  - unfold scan_step at 2. cbn [fst snd].
    rewrite IH, wrapped_app, wrapped_body_events, orb_assoc. reflexivity.
Qed.

(** The first 65536 iterations, evaluated: the sum they leave, and no
    overflow on the way. *)
Lemma scan_65536 :
  fold_left scan_step (zrange 0 (Z.to_nat 65536)) (0, false)
    = (2147422440, false).
Proof. vm_compute. reflexivity. Qed.

Lemma loop_65536 :
  fold_left body_sum (zrange 0 (Z.to_nat 65536)) 0 = 2147422440
  /\ wrapped (loop_events (zrange 0 (Z.to_nat 65536)) 0) = false.
Proof.
  pose proof (fold_scan_step (zrange 0 (Z.to_nat 65536)) 0 false) as Hspec.
  rewrite scan_65536 in Hspec.
  apply pair_equal_spec in Hspec as [Hsum Hwrap].
  rewrite orb_false_l in Hwrap.
  split; symmetry; assumption.
Qed.

Lemma no_overflow_upto (n : nat) :
  (n <= Z.to_nat 65536)%nat ->
  wrapped (loop_events (zrange 0 n) 0) = false.
Proof.
  intros Hn. destruct loop_65536 as [_ Hwrap].
  revert Hn Hwrap. generalize (Z.to_nat 65536) as m. intros m Hn Hwrap.
  replace m with (n + (m - n))%nat in Hwrap by lia.
  rewrite zrange_app, loop_events_app, wrapped_app in Hwrap.
  apply orb_false_iff in Hwrap. exact (proj1 Hwrap).
Qed.

Lemma overflow_beyond (n : nat) :
  (Z.to_nat 65536 < n)%nat ->
  wrapped (loop_events (zrange 0 n) 0) = true.
Proof.
  intros Hn. destruct loop_65536 as [Hsum _].
  assert (Hid : 0 + Z.of_nat (Z.to_nat 65536) = 65536) by lia.
  revert Hn Hsum Hid. generalize (Z.to_nat 65536) as m. intros m Hn Hsum Hid.
  replace n with (m + S (n - S m))%nat by lia.
  rewrite zrange_app, loop_events_app, wrapped_app, Hsum, Hid.
  cbn [zrange loop_events].
  rewrite wrapped_app, wrapped_body_events.
  change (negb (Int32.in_rangeb (2147422440 + 65536))) with true.
  rewrite orb_true_l. apply orb_true_r.
Qed.

(** X5: signed overflow starts at [iterations = 65537].  On a 32-bit
    signed [iterations], some addition [sum += i] of the loop leaves the
    int32 range if and only if [iterations > 65536]. *)
Theorem overflow_iff_above_65536
    {G : Type} (iterations : Z) (fuel : nat) (g : G) :
  Int32.in_range iterations ->
  (Z.to_nat iterations <= fuel)%nat ->
  exists v t,
    heavy_computation fuel iterations g = Some (v, t, g)
    /\ (wrapped t = true <-> 65536 < iterations).
Proof.
  intros Hrange Hfuel.
  rewrite heavy_computation_unroll; [| apply Hrange | assumption].
  eexists _, _. split; [reflexivity |].
  rewrite wrapped_app, wrapped_sleep_events, orb_false_r.
  destruct (Z.le_gt_cases iterations 65536) as [Hle | Hgt].
  - rewrite no_overflow_upto by lia. split; [discriminate | lia].
  - rewrite overflow_beyond by lia. split; [lia | reflexivity].
Qed.

Lemma overflow_iff_above_65536_witness :
  Int32.in_range 2000 /\ (Z.to_nat 2000 <= Z.to_nat 2000)%nat /\
  exists v t,
    heavy_computation (Z.to_nat 2000) 2000 tt = Some (v, t, tt)
    /\ (wrapped t = true <-> 65536 < 2000).
Proof.
  assert (Hr : Int32.in_range 2000) by int32_range.
  assert (Hf : (Z.to_nat 2000 <= Z.to_nat 2000)%nat) by lia.
  exact (conj Hr (conj Hf
           (overflow_iff_above_65536 2000 (Z.to_nat 2000) tt Hr Hf))).
Defined.

(** ** The overflow-free range is exact *)

Lemma exact_step_body_sum (sum i : Z) :
  Int32.in_range sum -> 0 <= i <= Int32.max_signed ->
  Int32.in_rangeb (sum + i) = true ->
  body_sum sum i = exact_step sum i.
Proof.
  intros Hsum Hi Hfit. apply Int32Facts.in_rangeb_spec in Hfit.
  unfold body_sum, exact_step.
  rewrite rems_multiple, Int32Facts.add_exact by (assumption || lia).
  destruct (i mod 1000 =? 0); [| reflexivity].
  apply Int32Facts.xor_lxor; [assumption |].
  revert Hi. Int32Facts.unfold_int32. lia.
Qed.

Lemma exact_fold (indices : list Z) :
  forall sum,
    Int32.in_range sum ->
    Forall (fun i => 0 <= i <= Int32.max_signed) indices ->
    wrapped (loop_events indices sum) = false ->
    fold_left body_sum indices sum = fold_left exact_step indices sum.
Proof.
  induction indices as [| i rest IH]; intros sum Hsum Hall Hwrap;
    [reflexivity |].
  inversion Hall as [| ? ? Hi Hrest]; subst.
  cbn [loop_events] in Hwrap.
  rewrite wrapped_app, wrapped_body_events in Hwrap.
  apply orb_false_iff in Hwrap as [Hfit Hwrap].
  apply negb_false_iff in Hfit.
  cbn [fold_left]. rewrite <- (exact_step_body_sum sum i) by assumption.
  apply IH; [apply body_sum_in_range | assumption | assumption].
Qed.

Lemma exact_step_nonneg (sum i : Z) :
  0 <= sum -> 0 <= i -> 0 <= exact_step sum i.
Proof.
  intros Hsum Hi. unfold exact_step.
  destruct (i mod 1000 =? 0); [apply Z.lxor_nonneg |]; lia.
Qed.

Lemma exact_fold_nonneg (indices : list Z) :
  forall sum,
    0 <= sum -> Forall (fun i => 0 <= i) indices ->
    0 <= fold_left exact_step indices sum.
Proof.
  induction indices as [| i rest IH]; intros sum Hsum Hall; [assumption |].
  inversion Hall as [| ? ? Hi Hrest]; subst.
  cbn [fold_left]. apply IH; [now apply exact_step_nonneg | assumption].
Qed.

(** X6: up to [iterations = 65536] the 32-bit arithmetic is exact.  The
    value returned is the accumulation carried out on unbounded integers
    (plain addition, and the exclusive or of [Z] at the multiples of
    1000); it lies between 0 and [INT32_MAX], and no addition wraps. *)
Theorem heavy_computation_exact
    {G : Type} (iterations : Z) (fuel : nat) (g : G) :
  Int32.min_signed <= iterations <= 65536 ->
  (Z.to_nat iterations <= fuel)%nat ->
  exists t,
    heavy_computation fuel iterations g =
      Some (exact_accumulation iterations, t, g)
    /\ wrapped t = false
    /\ 0 <= exact_accumulation iterations <= Int32.max_signed.
Proof.
  intros Hrange Hfuel.
  assert (Hzero : Int32.in_range 0) by int32_range.
  assert (Hmax : iterations <= Int32.max_signed)
    by (revert Hrange; Int32Facts.unfold_int32; lia).
  pose proof (no_overflow_upto (Z.to_nat iterations) ltac:(lia)) as Hwrap.
  assert (Hall : Forall (fun i => 0 <= i <= Int32.max_signed)
                   (zrange 0 (Z.to_nat iterations))).
  { apply Forall_forall. intros j Hj. apply zrange_In in Hj. lia. }
  pose proof (exact_fold _ 0 Hzero Hall Hwrap) as Hexact.
  assert (Hacc : exact_accumulation iterations =
                 fold_left body_sum (zrange 0 (Z.to_nat iterations)) 0).
  { unfold exact_accumulation.
    rewrite <- (zrange_seq (Z.to_nat iterations) 0). now symmetry. }
  rewrite heavy_computation_unroll by assumption.
  eexists. split; [now rewrite Hacc |]. split.
  - now rewrite wrapped_app, Hwrap, wrapped_sleep_events.
  - split.
    + unfold exact_accumulation.
      rewrite <- (zrange_seq (Z.to_nat iterations) 0).
      apply exact_fold_nonneg; [lia | now apply zrange_nonneg].
    + rewrite Hacc. now apply fold_body_sum_in_range.
Qed.

Lemma heavy_computation_exact_witness :
  Int32.min_signed <= 2000 <= 65536 /\
  (Z.to_nat 2000 <= Z.to_nat 2000)%nat /\
  exists t,
    heavy_computation (Z.to_nat 2000) 2000 tt =
      Some (exact_accumulation 2000, t, tt)
    /\ wrapped t = false
    /\ 0 <= exact_accumulation 2000 <= Int32.max_signed.
Proof.
  assert (Hr : Int32.min_signed <= 2000 <= 65536) by int32_range.
  assert (Hf : (Z.to_nat 2000 <= Z.to_nat 2000)%nat) by lia.
  exact (conj Hr (conj Hf
           (heavy_computation_exact 2000 (Z.to_nat 2000) tt Hr Hf))).
Defined.
